(** * scripts/make-logo-transparent.py: the transparency filter

    A shallow embedding of [make_transparent] and of the script's entry
    point, and the properties of the filter proved on it.

    The script is thirty lines of Python over Pillow.  What is embedded
    from the source is the function [make_transparent] itself: the order
    of its steps, the two nested [for] loops, the read of [pixels[x, y]],
    the test on the three colour channels and the write-back of
    [(r, g, b, 0)].  Pillow is not part of the repository; the four calls
    into it ([Image.open], [convert], pixel access, [save]) are modelled
    below, each marked as such. *)

From Stdlib Require Import ZArith.
From stdpp Require Import gmap strings list.

(** ** Data model *)

(** A pixel is the Python tuple Pillow hands out: three channels for an
    image without alpha, four for one with alpha.  Channels are Python
    ints; Pillow keeps them in 0..255. *)
Definition rgb : Type := Z * Z * Z.
Definition rgba : Type := Z * Z * Z * Z.

(** An image buffer: [size] is Pillow's [img.size], that is
    [(width, height)], and [rows] the scan lines, top to bottom, each
    holding one pixel per column. *)
Record raster (P : Type) : Type := Raster {
  size : nat * nat;
  rows : list (list P)
}.
Arguments Raster {P} _ _.
Arguments size {P} _.
Arguments rows {P} _.

(** A decoded image, by mode: without or with an alpha channel. *)
Inductive Image : Type :=
  | ImageRGB (im : raster rgb)
  | ImageRGBA (im : raster rgba).

(** What a path of the file system holds: bytes no decoder accepts, or
    an encoded image, identified with the image it decodes to. *)
Inductive file : Type :=
  | Undecodable
  | Encoded (im : Image).

(** The part of the outside world the script touches: the files, the
    paths that cannot be written, and what was printed so far. *)
Record world : Type := World {
  fs : gmap string file;
  unwritable : gset string;
  stdout : list string
}.

(** The exceptions that can leave [make_transparent].  The source
    catches none of them. *)
Inductive exn : Type :=
  | FileError     (* input path missing: Python's FileNotFoundError *)
  | DecodeError   (* not an image: PIL.UnidentifiedImageError *)
  | IndexError    (* pixel access outside the image *)
  | WriteError.   (* output path not writable: OSError *)

(** ** Two small monads: exceptions, and exceptions over the world *)

Definition result (A : Type) : Type := exn + A.

#[export] Instance result_ret : MRet result := λ A x, inr x.
#[export] Instance result_bind : MBind result := λ A B k m,
  match m with
  | inl e => inl e
  | inr x => k x
  end.

Definition raise {A} (e : exn) : result A := inl e.

(** A statement of the script: it reads and changes the world, and
    either raises or returns.  The world is kept on both outcomes. *)
Definition io (A : Type) : Type := world → result A * world.

#[export] Instance io_ret : MRet io := λ A x w, (inr x, w).
#[export] Instance io_bind : MBind io := λ A B k m w,
  match m w with
  | (inl e, w') => (inl e, w')
  | (inr x, w') => k x w'
  end.

(** A computation that touches no file. *)
Definition pure_step {A} (m : result A) : io A := λ w, (m, w).

(** [for i in it: body], the loop state threaded through; an exception
    in the body leaves the loop. *)
Fixpoint for_in {I S : Type} (it : list I) (body : I → S → result S)
    (s : S) : result S :=
  match it with
  | [] => mret s
  | i :: it' => s' ← body i s; for_in it' body s'
  end.

(** Python's [range(n)]. *)
Definition range (n : nat) : list nat := seq 0 n.

(** ** The calls into Pillow *)

(** The pixel in column [x] of row [y], if there is one. *)
Definition pixel_at {P} (im : raster P) (x y : nat) : option P :=
  row ← rows im !! y; row !! x.

(** [pixels[x, y]]: the pixel, or [IndexError] outside the image. *)
Definition getpixel {P} (im : raster P) (x y : nat) : result P :=
  match pixel_at im x y with
  | Some p => mret p
  | None => raise IndexError
  end.

(** [pixels[x, y] = v].  [pixels] is [img.load()], a view on the buffer
    of [img] and not a copy: the write changes [img], which is why the
    image itself is threaded through the loops.  Outside the image the
    write raises; it never extends the buffer. *)
Definition putpixel {P} (im : raster P) (x y : nat) (v : P)
    : result (raster P) :=
  match rows im !! y with
  | Some row =>
      if decide (x < length row)
      then mret (Raster (size im) (<[y := <[x := v]> row]> (rows im)))
      else raise IndexError
  | None => raise IndexError
  end.

(** Modelled from the spec: [Image.open(path)] is Pillow's and is not in
    the repository.  The spec has it fail with a FileError when the path
    does not exist and with a DecodeError when the content is not a
    decodable image; otherwise it yields the image. *)
Definition Image_open (path : string) : io Image := λ w,
  match fs w !! path with
  | None => (raise FileError, w)
  | Some Undecodable => (raise DecodeError, w)
  | Some (Encoded im) => (mret im, w)
  end.

(** Modelled from the spec: [.convert('RGBA')] is Pillow's and is not in
    the repository.  The spec has it ensure an alpha channel: a source
    without one gets alpha 255 on every pixel, a source with one keeps
    its pixels. *)
Definition convert_RGBA (src : Image) : raster rgba :=
  match src with
  | ImageRGB im =>
      Raster (size im) (map (map (λ '(r, g, b), (r, g, b, 255%Z))) (rows im))
  | ImageRGBA im => im
  end.

(** Modelled from the spec: [img.save(path, 'PNG')] is Pillow's and is
    not in the repository.  The spec has it write the buffer as a PNG
    with alpha, replacing what the path held, or fail with a WriteError
    when the path is not writable. *)
Definition save (img : raster rgba) (path : string) : io unit := λ w,
  if decide (path ∈ unwritable w)
  then (raise WriteError, w)
  else (mret (),
        World (<[path := Encoded (ImageRGBA img)]> (fs w))
              (unwritable w) (stdout w)).

(** [print(s)]. *)
Definition print (s : string) : io unit := λ w,
  (mret (), World (fs w) (unwritable w) (stdout w ++ [s])).

(** ** The source: [make_transparent] *)

(** Lines 24 to 28, the body of the inner loop at column [x] of row [y]:
<<
    r, g, b, a = pixels[x, y]
    if r >= threshold and g >= threshold and b >= threshold:
        pixels[x, y] = (r, g, b, 0)
>> *)
Definition visit (threshold : Z) (x y : nat) (img : raster rgba)
    : result (raster rgba) :=
  '(r, g, b, a) ← getpixel img x y;
  if (r >=? threshold)%Z && (g >=? threshold)%Z && (b >=? threshold)%Z
  then putpixel img x y (r, g, b, 0%Z)
  else mret img.

(** Lines 19 to 28: the size is read once, then the two loops run, rows
    outside and columns inside. *)
Definition transparent_pass (threshold : Z) (img : raster rgba)
    : result (raster rgba) :=
  let '(width, height) := size img in
  for_in (range height) (λ y,
    for_in (range width) (λ x, visit threshold x y)) img.

(** Lines 6 to 32. *)
Definition make_transparent (input_path output_path : string)
    (threshold : Z) : io unit :=
  src ← Image_open input_path;
  let img := convert_RGBA src in
  img ← pure_step (transparent_pass threshold img);
  save img output_path;;
  print ("✓ Converted " +:+ input_path
         +:+ " to transparent PNG: " +:+ output_path).

(** The default of the [threshold] parameter. *)
Definition default_threshold : Z := 240.

(** Lines 34 to 41, the entry point: the logo is filtered in place. *)
Definition main : io unit :=
  make_transparent "docs/public/logo.png" "docs/public/logo.png" 240;;
  print "✓ Logo background removed successfully!".

(** ** Definitions the statements are written with *)

(** The colour channels and the alpha channel of a pixel. *)
Definition colour (p : rgba) : rgb := let '(r, g, b, _) := p in (r, g, b).
Definition alpha (p : rgba) : Z := p.2.

(** A pixel is light for a threshold when its red, green and blue are
    all at least the threshold. *)
Definition light (threshold : Z) (p : rgba) : Prop :=
  let '(r, g, b, _) := p in
  (threshold ≤ r)%Z ∧ (threshold ≤ g)%Z ∧ (threshold ≤ b)%Z.

#[export] Instance light_dec threshold p : Decision (light threshold p).
Proof. destruct p as [[[r g] b] a]. simpl. apply _. Defined.

(** The rule of the spec for one pixel, on its own: alpha becomes zero
    on a light pixel, any other pixel is kept. *)
Definition spec_pixel (threshold : Z) (p : rgba) : rgba :=
  if decide (light threshold p)
  then let '(r, g, b, _) := p in (r, g, b, 0%Z)
  else p.

(** A function applied to every pixel of a buffer, with no order. *)
Definition raster_map {P Q} (f : P → Q) (im : raster P) : raster Q :=
  Raster (size im) (map (map f) (rows im)).

(** The filter of the spec: the rule at every pixel. *)
Definition spec_filter (threshold : Z) (img : raster rgba) : raster rgba :=
  raster_map (spec_pixel threshold) img.

(** The loop body of the source run over the pixels in any order, given
    as the list of the positions [(x, y)] to visit. *)
Definition traverse (threshold : Z) (order : list (nat * nat))
    (img : raster rgba) : result (raster rgba) :=
  for_in order (λ '(x, y), visit threshold x y) img.

(** The order of the source: row after row, each from left to right. *)
Definition row_major (width height : nat) : list (nat * nat) :=
  y ← range height; (λ x, (x, y)) <$> range width.

(** A buffer is well formed when it has [height] rows of [width]
    pixels, as every buffer of Pillow has. *)
Definition wf_raster {P} (im : raster P) : Prop :=
  length (rows im) = (size im).2 ∧
  Forall (λ row, length row = (size im).1) (rows im).

Definition wf_Image (src : Image) : Prop :=
  match src with
  | ImageRGB im => wf_raster im
  | ImageRGBA im => wf_raster im
  end.

Definition Image_size (src : Image) : nat * nat :=
  match src with
  | ImageRGB im => size im
  | ImageRGBA im => size im
  end.

(** The pixel of the loaded image at [(x, y)] as four channels, its
    alpha read as 255 when the image has no alpha channel. *)
Definition source_rgba (src : Image) (x y : nat) : option rgba :=
  match src with
  | ImageRGB im => '(r, g, b) ← pixel_at im x y; Some (r, g, b, 255%Z)
  | ImageRGBA im => pixel_at im x y
  end.

(** The image a path holds with an alpha channel, if it holds one. *)
Definition written (w : world) (path : string) : option (raster rgba) :=
  match fs w !! path with
  | Some (Encoded (ImageRGBA img)) => Some img
  | _ => None
  end.

(** The 2 by 2 image of the end-to-end example, without alpha. *)
Definition example_image : Image :=
  ImageRGB (Raster (2, 2)
    [[(255, 255, 255); (0, 0, 0)];
     [(240, 240, 240); (239, 239, 239)]]%Z).

Definition example_world : world :=
  World {[ "logo.png" := Encoded example_image ]} ∅ [].

(** A 2 by 1 image with alpha: a dark pixel that is already clear, and
    a light pixel that is half opaque; and a world that holds it next to
    a file that is not an image. *)
Definition example_alpha_image : Image :=
  ImageRGBA (Raster (2, 1) [[(10, 20, 30, 0); (250, 250, 250, 128)]]%Z).

Definition example_alpha_world : world :=
  World {[ "in.png" := Encoded example_alpha_image;
           "notes.txt" := Undecodable ]} {[ "locked.png" ]} [].

(** Channels are 8-bit unsigned: what Pillow hands out for every pixel
    of an image it decoded. *)
Definition channel (c : Z) : Prop := (0 ≤ c ≤ 255)%Z.

Definition eight_bit_pixel (p : rgba) : Prop :=
  let '(r, g, b, a) := p in channel r ∧ channel g ∧ channel b ∧ channel a.

Definition eight_bit (img : raster rgba) : Prop :=
  Forall (Forall eight_bit_pixel) (rows img).

(** A pixel with its alpha set to zero. *)
Definition clear (p : rgba) : rgba := let '(r, g, b, _) := p in (r, g, b, 0%Z).

(** The path the entry point reads and writes. *)
Definition logo_path : string := "docs/public/logo.png".

(** A world whose logo is the example image. *)
Definition example_logo_world : world :=
  World {[ logo_path := Encoded example_image ]} ∅ ["$ make logo"].

(** ** Loops *)

Section loops.
Context {I S : Type}.
Implicit Types (body : I → S → result S) (s : S).

Lemma for_in_app it1 it2 body s :
  for_in (it1 ++ it2) body s = s' ← for_in it1 body s; for_in it2 body s'.
Proof.
  revert s. induction it1 as [|i it1 IH]; intros s; simpl; [done|].
  destruct (body i s) as [e|s']; simpl; [done|]. apply IH.
Qed.

Lemma for_in_fmap {J} (f : J → I) (it : list J) body s :
  for_in (f <$> it) body s = for_in it (λ j, body (f j)) s.
Proof.
  revert s. induction it as [|j it IH]; intros s; simpl; [done|].
  destruct (body (f j) s) as [e|s']; simpl; [done|]. apply IH.
Qed.

End loops.

(** The two nested loops of the source are one loop over the positions
    in row-major order. *)
Lemma nested_loops_row_major threshold width height img :
  for_in (range height) (λ y,
    for_in (range width) (λ x, visit threshold x y)) img
  = traverse threshold (row_major width height) img.
Proof.
  unfold traverse, row_major. generalize (range height) as ys.
  intros ys. revert img.
  induction ys as [|y ys IH]; intros img; [done|].
  cbn [for_in mbind list_bind]. change (list_bind ?f ?l) with (l ≫= f).
  rewrite for_in_app, for_in_fmap.
  destruct (for_in (range width) _ img) as [e|img']; simpl; [done|].
  apply IH.
Qed.

(** ** Pixel access *)

Lemma pixel_at_Some {P} (im : raster P) x y p :
  pixel_at im x y = Some p ↔
  ∃ row, rows im !! y = Some row ∧ row !! x = Some p.
Proof.
  unfold pixel_at. destruct (rows im !! y) as [row|]; simpl.
  - split; [eauto|]. by intros (? & [= <-] & ?).
  - split; [done|]. by intros (? & ? & ?).
Qed.

(** On a well-formed buffer the pixels are those inside the size. *)
Lemma pixel_at_wf {P} (im : raster P) x y :
  wf_raster im →
  is_Some (pixel_at im x y) ↔ x < (size im).1 ∧ y < (size im).2.
Proof.
  intros [Hh Hw]. rewrite Forall_lookup in Hw. split.
  - intros [p (row & Hrow & Hp)%pixel_at_Some].
    apply lookup_lt_Some in Hrow as Hy. apply lookup_lt_Some in Hp.
    rewrite (Hw _ _ Hrow) in Hp. lia.
  - intros [Hx Hy]. rewrite <- Hh in Hy.
    apply lookup_lt_is_Some in Hy as [row Hrow].
    rewrite <- (Hw _ _ Hrow) in Hx.
    apply lookup_lt_is_Some in Hx as [p Hp].
    exists p. apply pixel_at_Some. eauto.
Qed.

(** Two buffers are equal when they have the same size, as many rows,
    and the same pixel at every position. *)
Lemma raster_ext {P} (im1 im2 : raster P) :
  size im1 = size im2 →
  map length (rows im1) = map length (rows im2) →
  (∀ x y, pixel_at im1 x y = pixel_at im2 x y) →
  im1 = im2.
Proof.
  destruct im1 as [sz1 rows1], im2 as [sz2 rows2]; simpl.
  intros -> Hlen Hpx. f_equal. apply list_eq. intros y.
  assert (length <$> rows1 !! y = length <$> rows2 !! y) as Hy.
  { rewrite <- !list_lookup_fmap. by f_equal. }
  destruct (rows1 !! y) as [row1|] eqn:E1, (rows2 !! y) as [row2|] eqn:E2;
    try done.
  f_equal. apply list_eq. intros x.
  specialize (Hpx x y). unfold pixel_at in Hpx. simpl in Hpx.
  by rewrite E1, E2 in Hpx.
Qed.

Lemma pixel_at_raster_map {P Q} (f : P → Q) (im : raster P) x y :
  pixel_at (raster_map f im) x y = f <$> pixel_at im x y.
Proof.
  unfold pixel_at, raster_map. simpl. rewrite list_lookup_fmap.
  destruct (rows im !! y) as [row|]; simpl; [|done].
  apply list_lookup_fmap.
Qed.

Lemma raster_map_shape {P Q} (f : P → Q) (im : raster P) :
  map length (rows (raster_map f im)) = map length (rows im).
Proof.
  unfold raster_map. simpl. rewrite map_map. apply map_ext.
  intros row. apply length_map.
Qed.

Lemma wf_raster_map {P Q} (f : P → Q) (im : raster P) :
  wf_raster im → wf_raster (raster_map f im).
Proof.
  intros [Hh Hw]. split; simpl.
  - by rewrite length_map.
  - apply Forall_fmap. eapply Forall_impl; [done|].
    intros row Hrow. simpl. by rewrite length_map.
Qed.

(** ** The rule for one pixel *)

(** The test of line 27 decides [light]. *)
Lemma light_test threshold r g b a :
  (r >=? threshold)%Z && (g >=? threshold)%Z && (b >=? threshold)%Z
  = bool_decide (light threshold (r, g, b, a)).
Proof.
  apply eq_true_iff_eq.
  rewrite !andb_true_iff, !Z.geb_le, bool_decide_eq_true. simpl. tauto.
Qed.

Lemma spec_pixel_light threshold r g b a :
  light threshold (r, g, b, a) →
  spec_pixel threshold (r, g, b, a) = (r, g, b, 0%Z).
Proof. intros H. unfold spec_pixel. by rewrite decide_True. Qed.

Lemma spec_pixel_dark threshold p :
  ¬ light threshold p → spec_pixel threshold p = p.
Proof. intros H. unfold spec_pixel. by rewrite decide_False. Qed.

Lemma spec_pixel_colour threshold p :
  colour (spec_pixel threshold p) = colour p.
Proof.
  unfold spec_pixel. destruct p as [[[r g] b] a]. by case_decide.
Qed.

Lemma spec_pixel_idemp threshold p :
  spec_pixel threshold (spec_pixel threshold p) = spec_pixel threshold p.
Proof.
  destruct (decide (light threshold p)) as [H|H].
  - destruct p as [[[r g] b] a].
    rewrite (spec_pixel_light _ _ _ _ _ H). by apply spec_pixel_light.
  - by rewrite !(spec_pixel_dark _ p H).
Qed.

(** ** The loop body, and the loop over any order *)

(** On a pixel of the buffer the body returns, and the buffer it leaves
    differs from the one it found at that pixel only, where it holds
    what the rule gives. *)
Lemma visit_spec threshold x y img p :
  pixel_at img x y = Some p →
  ∃ img', visit threshold x y img = inr img' ∧
    size img' = size img ∧
    map length (rows img') = map length (rows img) ∧
    ∀ x' y', pixel_at img' x' y' =
      if decide ((x', y') = (x, y)) then Some (spec_pixel threshold p)
      else pixel_at img x' y'.
Proof.
  intros Hp. unfold visit, getpixel. rewrite Hp.
  destruct p as [[[r g] b] a]. cbn [mret result_ret mbind result_bind].
  rewrite (light_test _ _ _ _ a). case_bool_decide as Hl.
  - apply pixel_at_Some in Hp as (row & Hrow & Hx).
    apply lookup_lt_Some in Hrow as Hy. apply lookup_lt_Some in Hx as Hx'.
    unfold putpixel. rewrite Hrow, decide_True by done.
    eexists. split; [done|]. split; [done|]. simpl. split.
    + apply list_eq. intros i. rewrite !list_lookup_fmap.
      destruct (decide (i = y)) as [->|Hne].
      * rewrite list_lookup_insert_eq, Hrow by done. simpl.
        by rewrite length_insert.
      * by rewrite list_lookup_insert_ne.
    + intros x' y'. unfold pixel_at. simpl.
      rewrite (spec_pixel_light _ _ _ _ _ Hl).
      destruct (decide (y' = y)) as [->|Hy'].
      * rewrite list_lookup_insert_eq by done. simpl.
        destruct (decide (x' = x)) as [->|Hx''].
        -- rewrite list_lookup_insert_eq, decide_True; done.
        -- rewrite list_lookup_insert_ne, decide_False, Hrow by congruence.
           done.
      * rewrite list_lookup_insert_ne, decide_False by congruence. done.
  - exists img. split; [done|]. split; [done|]. split; [done|].
    intros x' y'. rewrite spec_pixel_dark by done.
    case_decide as E; [|done]. by injection E as -> ->.
Qed.

(** Run over positions that are all in the buffer, in any order and
    with any repetition, the loop returns; the positions it visited
    hold what the rule gives for the pixel found there at the start,
    and the others are as they were. *)
Lemma traverse_spec threshold order img :
  (∀ x y, (x, y) ∈ order → is_Some (pixel_at img x y)) →
  ∃ img', traverse threshold order img = inr img' ∧
    size img' = size img ∧
    map length (rows img') = map length (rows img) ∧
    ∀ x y, pixel_at img' x y =
      if decide ((x, y) ∈ order)
      then spec_pixel threshold <$> pixel_at img x y
      else pixel_at img x y.
Proof.
  revert img. induction order as [|[x0 y0] order IH]; intros img Hin.
  { by exists img. }
  destruct (Hin x0 y0) as [p Hp]; [left|].
  destruct (visit_spec threshold x0 y0 img p Hp)
    as (img1 & Hrun & Hsz1 & Hsh1 & Hpx1).
  destruct (IH img1) as (img' & Hrun' & Hsz' & Hsh' & Hpx').
  { intros x y Hxy. rewrite Hpx1. case_decide; [done|].
    apply Hin. by right. }
  exists img'. unfold traverse in *. cbn [for_in]. rewrite Hrun.
  split; [done|]. split; [congruence|]. split; [congruence|].
  intros x y. rewrite Hpx', !Hpx1.
  destruct (decide ((x, y) = (x0, y0))) as [E|E].
  - injection E as -> ->. rewrite Hp, (decide_True (P := _ ∈ _ :: _)) by left.
    case_decide; simpl; [|done]. by rewrite spec_pixel_idemp.
  - destruct (decide ((x, y) ∈ order)) as [Hxy|Hxy].
    + rewrite decide_True; [done|]. by right.
    + rewrite decide_False; [done|]. by intros [?|?]%elem_of_cons.
Qed.

(** An order that visits the pixels of the buffer, all of them and
    nothing else, computes the filter of the spec. *)
Lemma traverse_covering threshold order img :
  (∀ x y, (x, y) ∈ order ↔ is_Some (pixel_at img x y)) →
  traverse threshold order img = inr (spec_filter threshold img).
Proof.
  intros Hcover.
  destruct (traverse_spec threshold order img)
    as (img' & -> & Hsz & Hsh & Hpx); [intros; by apply Hcover|].
  f_equal. apply raster_ext; [done| |].
  - unfold spec_filter. by rewrite raster_map_shape.
  - intros x y. unfold spec_filter.
    rewrite Hpx, pixel_at_raster_map. case_decide as Hxy; [done|].
    destruct (pixel_at img x y) eqn:E; [|done].
    destruct Hxy. apply Hcover. by rewrite E.
Qed.

Lemma elem_of_row_major width height x y :
  (x, y) ∈ row_major width height ↔ x < width ∧ y < height.
Proof.
  unfold row_major, range. rewrite list_elem_of_bind. split.
  - intros (y' & (x' & [= -> ->] & Hx)%list_elem_of_fmap & Hy).
    apply elem_of_seq in Hx, Hy. lia.
  - intros [Hx Hy]. exists y. split.
    + apply list_elem_of_fmap. exists x. split; [done|].
      apply elem_of_seq. lia.
    + apply elem_of_seq. lia.
Qed.

(** The loops of the source compute the filter of the spec. *)
Lemma transparent_pass_spec threshold img :
  wf_raster img →
  transparent_pass threshold img = inr (spec_filter threshold img).
Proof.
  intros Hwf. unfold transparent_pass.
  destruct (size img) as [width height] eqn:Hsize.
  rewrite nested_loops_row_major. apply traverse_covering.
  intros x y. rewrite elem_of_row_major, pixel_at_wf by done.
  by rewrite Hsize.
Qed.

(** ** Conversion *)

Lemma size_convert_RGBA src : size (convert_RGBA src) = Image_size src.
Proof. by destruct src. Qed.

Lemma wf_convert_RGBA src : wf_Image src → wf_raster (convert_RGBA src).
Proof.
  destruct src as [im|im]; [|done].
  apply (wf_raster_map (λ '(r, g, b), (r, g, b, 255%Z))).
Qed.

Lemma pixel_at_convert_RGBA src x y :
  pixel_at (convert_RGBA src) x y = source_rgba src x y.
Proof.
  destruct src as [im|im]; [|done]. simpl.
  change (Raster (size im) _)
    with (raster_map (P := rgb) (λ '(r, g, b), (r, g, b, 255%Z)) im).
  rewrite pixel_at_raster_map.
  destruct (pixel_at im x y) as [[[r g] b]|]; reflexivity.
Qed.

(** ** The whole run *)

(** When the input path holds an image and the output path can be
    written, [make_transparent] returns: the output path then holds the
    filter of the spec applied to the converted image, every other path
    is as before, and one line was printed. *)
Lemma make_transparent_run w input_path output_path threshold src :
  fs w !! input_path = Some (Encoded src) →
  wf_Image src →
  output_path ∉ unwritable w →
  make_transparent input_path output_path threshold w =
    (inr (),
     World (<[output_path :=
               Encoded (ImageRGBA
                 (spec_filter threshold (convert_RGBA src)))]> (fs w))
           (unwritable w)
           (stdout w ++ ["✓ Converted " +:+ input_path
                         +:+ " to transparent PNG: " +:+ output_path])).
Proof.
  intros Hfile Hwf Hwr.
  unfold make_transparent, mbind, io_bind, Image_open, pure_step.
  rewrite Hfile. cbn [mret result_ret].
  rewrite transparent_pass_spec by by apply wf_convert_RGBA.
  unfold save. by rewrite decide_False.
Qed.

Lemma written_insert w path img out err :
  written (World (<[path := Encoded (ImageRGBA img)]> (fs w)) out err) path
  = Some img.
Proof. unfold written. simpl. by rewrite lookup_insert_eq. Qed.

(** The filter of the spec on a source pixel. *)
Lemma pixel_at_spec_filter_convert threshold src x y :
  pixel_at (spec_filter threshold (convert_RGBA src)) x y
  = spec_pixel threshold <$> source_rgba src x y.
Proof.
  unfold spec_filter. by rewrite pixel_at_raster_map, pixel_at_convert_RGBA.
Qed.

Lemma spec_filter_idemp threshold img :
  spec_filter threshold (spec_filter threshold img)
  = spec_filter threshold img.
Proof.
  unfold spec_filter, raster_map. simpl. f_equal.
  rewrite map_map. apply map_ext. intros row.
  rewrite map_map. apply map_ext. intros p. apply spec_pixel_idemp.
Qed.

Lemma spec_filter_colour threshold img :
  raster_map colour (spec_filter threshold img) = raster_map colour img.
Proof.
  unfold spec_filter, raster_map. simpl. f_equal.
  rewrite map_map. apply map_ext. intros row.
  rewrite map_map. apply map_ext. intros p. apply spec_pixel_colour.
Qed.

(** ** The properties of the filter *)

Section filter.
Variables (w : world) (input_path output_path : string).
Variables (threshold : Z) (src : Image).

(** The run the properties are about: the input path holds an image,
    and the output path can be written. *)
Hypothesis input_is_image : fs w !! input_path = Some (Encoded src).
Hypothesis input_wf : wf_Image src.
Hypothesis output_writable : output_path ∉ unwritable w.

(** The run returns and leaves the filter of the spec at the output. *)
Lemma run_written :
  ∃ w', make_transparent input_path output_path threshold w = (inr (), w') ∧
    written w' output_path
      = Some (spec_filter threshold (convert_RGBA src)).
Proof.
  eexists. split; [by apply make_transparent_run|]. apply written_insert.
Qed.

(** C1: every pixel of the loaded image whose red, green and blue are
    all at least the threshold (the threshold itself included) comes out
    with alpha 0 and with its red, green and blue as they were. *)
Theorem light_pixel_becomes_transparent x y r g b a :
  source_rgba src x y = Some (r, g, b, a) →
  (threshold ≤ r)%Z → (threshold ≤ g)%Z → (threshold ≤ b)%Z →
  ∃ out w',
    make_transparent input_path output_path threshold w = (inr (), w') ∧
    written w' output_path = Some out ∧
    pixel_at out x y = Some (r, g, b, 0%Z).
Proof.
  intros Hp Hr Hg Hb. destruct run_written as (w' & Hrun & Hout).
  eexists _, w'. split; [done|]. split; [done|].
  rewrite pixel_at_spec_filter_convert, Hp. simpl.
  by rewrite spec_pixel_light.
Qed.

(** C2: every pixel of the loaded image with red, green or blue below
    the threshold comes out as it was in all four channels, its input
    alpha being 255 when the image had no alpha channel. *)
Theorem dark_pixel_unchanged x y r g b a :
  source_rgba src x y = Some (r, g, b, a) →
  (r < threshold ∨ g < threshold ∨ b < threshold)%Z →
  ∃ out w',
    make_transparent input_path output_path threshold w = (inr (), w') ∧
    written w' output_path = Some out ∧
    pixel_at out x y = Some (r, g, b, a).
Proof.
  intros Hp Hdark. destruct run_written as (w' & Hrun & Hout).
  eexists _, w'. split; [done|]. split; [done|].
  rewrite pixel_at_spec_filter_convert, Hp. simpl.
  rewrite spec_pixel_dark; [done|]. simpl. lia.
Qed.

(** C3: the image written has the width and the height of the input
    image, and the buffer written has that many rows and columns; its
    colour channels are those of the input at every pixel, so only
    alpha values can differ. *)
Theorem dimensions_preserved :
  ∃ out w',
    make_transparent input_path output_path threshold w = (inr (), w') ∧
    written w' output_path = Some out ∧
    size out = Image_size src ∧
    wf_raster out ∧
    raster_map colour out = raster_map colour (convert_RGBA src).
Proof.
  destruct run_written as (w' & Hrun & Hout).
  eexists _, w'. split; [done|]. split; [done|]. split; [|split].
  - apply size_convert_RGBA.
  - by apply wf_raster_map, wf_convert_RGBA.
  - apply spec_filter_colour.
Qed.

(** C4: the filter is idempotent.  Run again with the same threshold on
    the file it wrote, to any writable path, it writes the same buffer;
    and the pass over the buffer it wrote returns that buffer. *)
Theorem filter_idempotent output_path' :
  output_path' ∉ unwritable w →
  ∃ out w1 w2,
    make_transparent input_path output_path threshold w = (inr (), w1) ∧
    written w1 output_path = Some out ∧
    make_transparent output_path output_path' threshold w1 = (inr (), w2) ∧
    written w2 output_path' = Some out ∧
    transparent_pass threshold out = inr out.
Proof.
  intros Hwr'.
  pose proof (wf_raster_map (spec_pixel threshold) _
                (wf_convert_RGBA _ input_wf)) as Hwf1.
  eexists _, _, _. split; [by apply make_transparent_run|].
  split; [apply written_insert|]. split; [|split].
  - apply make_transparent_run
      with (src := ImageRGBA (spec_filter threshold (convert_RGBA src)));
      simpl; try done.
    apply lookup_insert_eq.
  - rewrite written_insert. simpl. f_equal. apply spec_filter_idemp.
  - rewrite transparent_pass_spec by done. f_equal. apply spec_filter_idemp.
Qed.

(** C7: the pass runs on the converted buffer, which has an alpha
    channel.  Converting an image without alpha gives alpha 255 to every
    pixel and keeps its colours; converting an image with alpha keeps
    the buffer, alpha included.  What is written is what the pass
    returns on the converted buffer. *)
Theorem converted_before_pass :
  (∀ im : raster rgb,
     Forall (Forall (λ p, alpha p = 255%Z))
            (rows (convert_RGBA (ImageRGB im))) ∧
     raster_map colour (convert_RGBA (ImageRGB im)) = im) ∧
  (∀ im : raster rgba, convert_RGBA (ImageRGBA im) = im) ∧
  ∃ out w',
    transparent_pass threshold (convert_RGBA src) = inr out ∧
    make_transparent input_path output_path threshold w = (inr (), w') ∧
    written w' output_path = Some out.
Proof.
  split; [|split; [done|]].
  - intros [sz rws]. simpl. split.
    + apply Forall_fmap, Forall_true. intros row.
      apply Forall_fmap, Forall_true. by intros [[r g] b].
    + unfold raster_map. simpl. f_equal.
      rewrite map_map. rewrite <- (map_id rws) at 2.
      apply map_ext. intros row.
      rewrite map_map. rewrite <- (map_id row) at 2.
      apply map_ext. by intros [[r g] b].
  - destruct run_written as (w' & Hrun & Hout).
    eexists _, w'. split; [|done].
    apply transparent_pass_spec. by apply wf_convert_RGBA.
Qed.

(** C9: no pixel comes out more opaque than it went in.  With unsigned
    channels, the alpha written is at most the input alpha, read as 255
    when the image had no alpha channel. *)
Theorem alpha_never_increases x y p :
  source_rgba src x y = Some p →
  (0 ≤ alpha p)%Z →
  ∃ out w' q,
    make_transparent input_path output_path threshold w = (inr (), w') ∧
    written w' output_path = Some out ∧
    pixel_at out x y = Some q ∧
    (alpha q ≤ alpha p)%Z.
Proof.
  intros Hp Ha. destruct run_written as (w' & Hrun & Hout).
  eexists _, w', _. split; [done|]. split; [done|]. split.
  - by rewrite pixel_at_spec_filter_convert, Hp.
  - unfold spec_pixel. destruct p as [[[r g] b] a].
    case_decide; simpl in *; lia.
Qed.

(** C10: a pixel comes out with alpha 0 exactly when it is light for the
    threshold or went in with alpha 0. *)
Theorem transparent_iff_light_or_clear x y p :
  source_rgba src x y = Some p →
  ∃ out w' q,
    make_transparent input_path output_path threshold w = (inr (), w') ∧
    written w' output_path = Some out ∧
    pixel_at out x y = Some q ∧
    (alpha q = 0%Z ↔ light threshold p ∨ alpha p = 0%Z).
Proof.
  intros Hp. destruct run_written as (w' & Hrun & Hout).
  eexists _, w', _. split; [done|]. split; [done|]. split.
  - by rewrite pixel_at_spec_filter_convert, Hp.
  - unfold spec_pixel. destruct p as [[[r g] b] a].
    case_decide; simpl in *; tauto.
Qed.

End filter.

(** C5: the order in which the pixels are visited does not matter.  The
    loop body run over the positions of the image in any order, each
    visited at least once, returns the buffer in which every pixel is
    the rule applied to the pixel that was there; the two loops of the
    source return the same. *)
Theorem traversal_order_irrelevant threshold img order :
  wf_raster img →
  (∀ x y, (x, y) ∈ order ↔ x < (size img).1 ∧ y < (size img).2) →
  traverse threshold order img
    = inr (raster_map (spec_pixel threshold) img) ∧
  transparent_pass threshold img = traverse threshold order img.
Proof.
  intros Hwf Horder.
  assert (traverse threshold order img = inr (spec_filter threshold img))
    as Htr.
  { apply traverse_covering. intros x y.
    by rewrite Horder, pixel_at_wf. }
  split; [done|]. by rewrite Htr, transparent_pass_spec.
Qed.

(** C6: on the 2 by 2 image (255,255,255), (0,0,0), (240,240,240),
    (239,239,239) without alpha and with threshold 240, the run returns
    and writes alpha 0, 255, 0, 255, the colours as they were. *)
Theorem end_to_end_example :
  ∃ out w',
    make_transparent "logo.png" "logo.png" 240 example_world = (inr (), w') ∧
    written w' "logo.png" = Some out ∧
    size out = (2, 2) ∧
    alpha <$> concat (rows out) = [0; 255; 0; 255]%Z ∧
    colour <$> concat (rows out) =
      [(255, 255, 255); (0, 0, 0); (240, 240, 240); (239, 239, 239)]%Z.
Proof.
  destruct (run_written example_world "logo.png" "logo.png" 240
              example_image) as (w' & Hrun & Hout).
  - reflexivity.
  - split; [reflexivity|]. repeat constructor.
  - apply not_elem_of_empty.
  - exists (spec_filter 240 (convert_RGBA example_image)), w'.
    repeat split; done.
Qed.

(** C8: when the input path does not exist, or holds no decodable
    image, the run raises at the load, a FileError in the first case and
    a DecodeError in the second, and leaves the world as it found it:
    nothing is written to the output path, and nothing is printed. *)
Theorem load_failure_writes_nothing w input_path output_path threshold :
  (∀ src, fs w !! input_path ≠ Some (Encoded src)) →
  make_transparent input_path output_path threshold w
    = (inl match fs w !! input_path with
           | None => FileError
           | Some _ => DecodeError
           end, w).
Proof.
  intros Hload. unfold make_transparent, mbind, io_bind, Image_open.
  destruct (fs w !! input_path) as [[|src]|]; [done| |done].
  by destruct (Hload src).
Qed.

(** ** The properties at concrete inputs *)

(** The hypotheses of a run on [example_world], in place. *)
Local Ltac example_run :=
  first [ reflexivity
        | apply not_elem_of_empty
        | (split; [reflexivity | repeat constructor]) ].

(** The hypotheses of a run on [example_alpha_world] to ["out.png"]. *)
Local Ltac example_alpha_run :=
  first [ reflexivity
        | (split; [reflexivity | repeat constructor])
        | (vm_compute; set_solver) ].

(** The boundary: (240, 240, 240) at threshold 240 is made clear. *)
Lemma light_pixel_becomes_transparent_witness :
  ∃ out w',
    make_transparent "logo.png" "logo.png" 240 example_world = (inr (), w') ∧
    written w' "logo.png" = Some out ∧
    pixel_at out 0 1 = Some (240, 240, 240, 0)%Z.
Proof.
  apply (light_pixel_becomes_transparent example_world "logo.png" "logo.png"
           240 example_image) with (a := 255%Z); first [example_run | lia].
Defined.

(** One below the boundary: (239, 239, 239) stays opaque. *)
Lemma dark_pixel_unchanged_witness :
  ∃ out w',
    make_transparent "logo.png" "logo.png" 240 example_world = (inr (), w') ∧
    written w' "logo.png" = Some out ∧
    pixel_at out 1 1 = Some (239, 239, 239, 255)%Z.
Proof.
  apply (dark_pixel_unchanged example_world "logo.png" "logo.png"
           240 example_image); first [example_run | lia].
Defined.

Lemma dimensions_preserved_witness :
  ∃ out w',
    make_transparent "in.png" "out.png" 240 example_alpha_world
      = (inr (), w') ∧
    written w' "out.png" = Some out ∧
    size out = (2, 1) ∧
    wf_raster out ∧
    raster_map colour out
      = raster_map colour (convert_RGBA example_alpha_image).
Proof.
  apply (dimensions_preserved example_alpha_world "in.png" "out.png"
           240 example_alpha_image); example_alpha_run.
Defined.

Lemma filter_idempotent_witness :
  ∃ out w1 w2,
    make_transparent "in.png" "out.png" 240 example_alpha_world
      = (inr (), w1) ∧
    written w1 "out.png" = Some out ∧
    make_transparent "out.png" "again.png" 240 w1 = (inr (), w2) ∧
    written w2 "again.png" = Some out ∧
    transparent_pass 240 out = inr out.
Proof.
  apply (filter_idempotent example_alpha_world "in.png" "out.png"
           240 example_alpha_image); example_alpha_run.
Defined.

(** The example image visited from the last pixel to the first. *)
Lemma traversal_order_irrelevant_witness :
  traverse 240 [(1, 1); (0, 1); (1, 0); (0, 0)] (convert_RGBA example_image)
    = inr (raster_map (spec_pixel 240) (convert_RGBA example_image)) ∧
  transparent_pass 240 (convert_RGBA example_image)
    = traverse 240 [(1, 1); (0, 1); (1, 0); (0, 0)]
        (convert_RGBA example_image).
Proof.
  apply (traversal_order_irrelevant 240 (convert_RGBA example_image)).
  - split; [reflexivity | repeat constructor].
  - intros x y. simpl. split.
    + intros H.
      repeat (apply elem_of_cons in H as [[= -> ->]|H]; [lia|]).
      by apply elem_of_nil in H.
    + intros [Hx Hy].
      destruct x as [|[|x]], y as [|[|y]]; try lia;
        repeat first [ by left | right ].
Defined.

Lemma converted_before_pass_witness :
  ∃ out w',
    transparent_pass 240 (convert_RGBA example_image) = inr out ∧
    make_transparent "logo.png" "logo.png" 240 example_world = (inr (), w') ∧
    written w' "logo.png" = Some out.
Proof.
  apply (converted_before_pass example_world "logo.png" "logo.png"
           240 example_image); example_run.
Defined.

(** A missing path and a file that is not an image; the output path
    holds what it held. *)
Lemma load_failure_writes_nothing_witness :
  make_transparent "missing.png" "in.png" 240 example_alpha_world
    = (inl FileError, example_alpha_world) ∧
  make_transparent "notes.txt" "in.png" 240 example_alpha_world
    = (inl DecodeError, example_alpha_world).
Proof.
  split.
  - apply (load_failure_writes_nothing example_alpha_world "missing.png").
    intros src. vm_compute. discriminate.
  - apply (load_failure_writes_nothing example_alpha_world "notes.txt").
    intros src. vm_compute. discriminate.
Defined.

(** The half opaque light pixel: alpha 128 goes to 0. *)
Lemma alpha_never_increases_witness :
  ∃ out w' q,
    make_transparent "in.png" "out.png" 240 example_alpha_world
      = (inr (), w') ∧
    written w' "out.png" = Some out ∧
    pixel_at out 1 0 = Some q ∧
    (alpha q ≤ 128)%Z.
Proof.
  apply (alpha_never_increases example_alpha_world "in.png" "out.png"
           240 example_alpha_image) with (p := (250, 250, 250, 128)%Z);
    first [example_alpha_run | (simpl; lia)].
Defined.

(** The dark pixel that went in clear: it comes out clear, far from
    white as it is. *)
Lemma transparent_iff_light_or_clear_witness :
  ∃ out w' q,
    make_transparent "in.png" "out.png" 240 example_alpha_world
      = (inr (), w') ∧
    written w' "out.png" = Some out ∧
    pixel_at out 0 0 = Some q ∧
    (alpha q = 0%Z ↔
     light 240 (10, 20, 30, 0)%Z ∨ alpha (10, 20, 30, 0)%Z = 0%Z).
Proof.
  apply (transparent_iff_light_or_clear example_alpha_world "in.png"
           "out.png" 240 example_alpha_image) with (p := (10, 20, 30, 0)%Z);
    example_alpha_run.
Defined.

(** ** Beyond the pixels: effects, failures, thresholds, the entry point *)

(** Two functions that agree on every pixel of a buffer map it alike. *)
Lemma raster_map_ext_Forall {P Q} (f g : P → Q) (im : raster P) :
  Forall (Forall (λ p, f p = g p)) (rows im) →
  raster_map f im = raster_map g im.
Proof.
  intros H. unfold raster_map. f_equal.
  apply map_ext_Forall. eapply Forall_impl; [done|].
  intros row Hrow. by apply map_ext_Forall.
Qed.

Lemma raster_map_id {P} (im : raster P) : raster_map id im = im.
Proof.
  destruct im as [sz rws]. unfold raster_map. simpl. f_equal.
  rewrite <- (map_id rws) at 2. apply map_ext. intros row. apply map_id.
Qed.

Lemma raster_map_compose {P Q R} (f : P → Q) (g : Q → R) (im : raster P) :
  raster_map g (raster_map f im) = raster_map (g ∘ f) im.
Proof.
  unfold raster_map. simpl. f_equal. rewrite map_map.
  apply map_ext. intros row. apply map_map.
Qed.

(** The rule at two thresholds, one after the other, is the rule at the
    lower of the two. *)
Lemma spec_pixel_min t1 t2 p :
  spec_pixel t1 (spec_pixel t2 p) = spec_pixel (Z.min t1 t2) p.
Proof.
  destruct p as [[[r g] b] a]. unfold spec_pixel.
  repeat (case_decide; simpl in *); try done; lia.
Qed.

Lemma spec_filter_min t1 t2 img :
  spec_filter t1 (spec_filter t2 img) = spec_filter (Z.min t1 t2) img.
Proof.
  unfold spec_filter. rewrite raster_map_compose.
  apply raster_map_ext_Forall, Forall_true. intros row.
  apply Forall_true. intros p. apply spec_pixel_min.
Qed.


Section effects.
Variables (w : world) (input_path output_path : string) (src : Image).

Hypothesis input_is_image : fs w !! input_path = Some (Encoded src).
Hypothesis input_wf : wf_Image src.

(** X1: The run writes the output path and nothing else: every other path
    holds what it held, the input file included when it is another
    path; and it prints one line, which names the two paths. *)
Theorem run_changes_only_output threshold :
  output_path ∉ unwritable w →
  ∃ w',
    make_transparent input_path output_path threshold w = (inr (), w') ∧
    (∀ path, path ≠ output_path → fs w' !! path = fs w !! path) ∧
    (input_path ≠ output_path → fs w' !! input_path = Some (Encoded src)) ∧
    stdout w' = stdout w ++ ["✓ Converted " +:+ input_path
                             +:+ " to transparent PNG: " +:+ output_path].
Proof.
  intros Hwr. eexists. split; [by apply make_transparent_run|]. simpl.
  split; [|split; [|done]].
  - intros path Hne. by rewrite lookup_insert_ne.
  - intros Hne. by rewrite lookup_insert_ne.
Qed.


(** X3: The threshold is not checked against the range 0-255 of the
    docstring.  Above 255 no pixel of an 8-bit image passes the test:
    the file written is the input converted to RGBA, alpha untouched. *)
Theorem threshold_above_255_keeps_alpha threshold :
  output_path ∉ unwritable w →
  eight_bit (convert_RGBA src) →
  (255 < threshold)%Z →
  ∃ w',
    make_transparent input_path output_path threshold w = (inr (), w') ∧
    written w' output_path = Some (convert_RGBA src).
Proof.
  intros Hwr Hbits Ht. eexists. split; [by apply make_transparent_run|].
  rewrite written_insert. f_equal.
  rewrite <- (raster_map_id (convert_RGBA src)) at 2.
  apply raster_map_ext_Forall.
  eapply Forall_impl; [exact Hbits|]. intros row Hrow.
  eapply Forall_impl; [exact Hrow|]. intros [[[r g] b] a] Hp.
  cbn in Hp. unfold channel in Hp. apply spec_pixel_dark. cbn. lia.
Qed.

(** X4: At a threshold of zero or below every pixel of an 8-bit image passes
    the test: the whole image is written with alpha 0, whatever its
    colours. *)
Theorem threshold_below_1_clears_all threshold :
  output_path ∉ unwritable w →
  eight_bit (convert_RGBA src) →
  (threshold ≤ 0)%Z →
  ∃ w',
    make_transparent input_path output_path threshold w = (inr (), w') ∧
    written w' output_path = Some (raster_map clear (convert_RGBA src)).
Proof.
  intros Hwr Hbits Ht. eexists. split; [by apply make_transparent_run|].
  rewrite written_insert. f_equal.
  apply raster_map_ext_Forall.
  eapply Forall_impl; [exact Hbits|]. intros row Hrow.
  eapply Forall_impl; [exact Hrow|]. intros [[[r g] b] a] Hp.
  cbn in Hp. unfold channel in Hp. apply spec_pixel_light. cbn. lia.
Qed.

(** X5: Two runs compose to one: filtering at [t2], then filtering the file
    written at [t1], writes what a single run at the lower of the two
    thresholds writes. *)
Theorem two_runs_are_one_at_min t1 t2 output_path' :
  output_path ∉ unwritable w →
  output_path' ∉ unwritable w →
  ∃ out w1 w2 w3,
    make_transparent input_path output_path t2 w = (inr (), w1) ∧
    make_transparent output_path output_path' t1 w1 = (inr (), w2) ∧
    written w2 output_path' = Some out ∧
    make_transparent input_path output_path' (Z.min t1 t2) w
      = (inr (), w3) ∧
    written w3 output_path' = Some out.
Proof.
  intros Hwr Hwr'.
  pose proof (wf_raster_map (spec_pixel t2) _
                (wf_convert_RGBA _ input_wf)) as Hwf1.
  eexists _, _, _, _. split; [by apply make_transparent_run|].
  split; [|split; [apply written_insert|split]].
  - apply make_transparent_run
      with (src := ImageRGBA (spec_filter t2 (convert_RGBA src)));
      simpl; try done.
    apply lookup_insert_eq.
  - by apply make_transparent_run.
  - rewrite written_insert. simpl. f_equal. symmetry. apply spec_filter_min.
Qed.

(** X6: Lowering the threshold never makes a pixel more opaque: of two runs
    on the same file, the one at the lower threshold writes every pixel
    with at most the alpha the other writes, and with the same colour. *)
Theorem lower_threshold_lower_alpha t1 t2 output_path' x y p :
  output_path ∉ unwritable w →
  output_path' ∉ unwritable w →
  source_rgba src x y = Some p →
  (0 ≤ alpha p)%Z →
  (t1 ≤ t2)%Z →
  ∃ out1 out2 w1 w2 q1 q2,
    make_transparent input_path output_path t1 w = (inr (), w1) ∧
    written w1 output_path = Some out1 ∧
    make_transparent input_path output_path' t2 w = (inr (), w2) ∧
    written w2 output_path' = Some out2 ∧
    pixel_at out1 x y = Some q1 ∧
    pixel_at out2 x y = Some q2 ∧
    (alpha q1 ≤ alpha q2)%Z ∧
    colour q1 = colour q2.
Proof.
  intros Hwr Hwr' Hp Ha Ht.
  eexists _, _, _, _, (spec_pixel t1 p), (spec_pixel t2 p).
  split; [by apply make_transparent_run|].
  split; [apply written_insert|].
  split; [by apply make_transparent_run|].
  split; [apply written_insert|].
  split; [by rewrite pixel_at_spec_filter_convert, Hp|].
  split; [by rewrite pixel_at_spec_filter_convert, Hp|].
  split; [|by rewrite !spec_pixel_colour].
  destruct p as [[[r g] b] a]. unfold spec_pixel.
  repeat (case_decide; simpl in *); lia.
Qed.

End effects.

(** ** The entry point *)

Section entry.
Variables (w : world) (src : Image).

Hypothesis logo_is_image : fs w !! logo_path = Some (Encoded src).
Hypothesis logo_wf : wf_Image src.
Hypothesis logo_writable : logo_path ∉ unwritable w.


(** X8: The script can be run again: the second run succeeds on the logo
    the first one wrote and leaves every file as the first run left
    it. *)
Theorem main_twice_same_files :
  ∃ w1 w2,
    main w = (inr (), w1) ∧
    main w1 = (inr (), w2) ∧
    fs w2 = fs w1.
Proof.
  pose proof (wf_raster_map (spec_pixel 240) _
                (wf_convert_RGBA _ logo_wf)) as Hwf1.
  eexists _, _. split; [|split].
  - unfold main, mbind, io_bind.
    change "docs/public/logo.png" with logo_path.
    rewrite (make_transparent_run w logo_path logo_path 240 src) by done.
    reflexivity.
  - unfold main, mbind, io_bind.
    change "docs/public/logo.png" with logo_path.
    erewrite (make_transparent_run _ logo_path logo_path 240
                (ImageRGBA (spec_filter 240 (convert_RGBA src))));
      [reflexivity| |done|done].
    simpl. apply lookup_insert_eq.
  - simpl. rewrite insert_insert_eq. f_equal. simpl.
    by rewrite spec_filter_idemp.
Qed.

End entry.


(** ** These properties at concrete inputs *)

(** The hypotheses of a run on [example_alpha_world]: the input file,
    its shape, its channels, and the paths that can be written. *)
Local Ltac alpha_world_run :=
  first [ reflexivity
        | lia
        | (split; [reflexivity | repeat constructor])
        | (repeat constructor; lia)
        | (vm_compute; set_solver) ].

Lemma run_changes_only_output_witness :
  ∃ w',
    make_transparent "in.png" "out.png" 240 example_alpha_world
      = (inr (), w') ∧
    (∀ path, path ≠ "out.png" →
       fs w' !! path = fs example_alpha_world !! path) ∧
    ("in.png" ≠ "out.png" →
       fs w' !! "in.png" = Some (Encoded example_alpha_image)) ∧
    stdout w' = stdout example_alpha_world ++
      ["✓ Converted " +:+ "in.png" +:+ " to transparent PNG: " +:+ "out.png"].
Proof.
  apply (run_changes_only_output example_alpha_world "in.png" "out.png"
           example_alpha_image); alpha_world_run.
Defined.


Lemma threshold_above_255_keeps_alpha_witness :
  ∃ w',
    make_transparent "in.png" "out.png" 256 example_alpha_world
      = (inr (), w') ∧
    written w' "out.png" = Some (convert_RGBA example_alpha_image).
Proof.
  apply (threshold_above_255_keeps_alpha example_alpha_world "in.png"
           "out.png" example_alpha_image); alpha_world_run.
Defined.

Lemma threshold_below_1_clears_all_witness :
  ∃ w',
    make_transparent "in.png" "out.png" 0 example_alpha_world
      = (inr (), w') ∧
    written w' "out.png"
      = Some (Raster (2, 1) [[(10, 20, 30, 0); (250, 250, 250, 0)]]%Z).
Proof.
  apply (threshold_below_1_clears_all example_alpha_world "in.png"
           "out.png" example_alpha_image); alpha_world_run.
Defined.

Lemma two_runs_are_one_at_min_witness :
  ∃ out w1 w2 w3,
    make_transparent "in.png" "out.png" 240 example_alpha_world
      = (inr (), w1) ∧
    make_transparent "out.png" "again.png" 20 w1 = (inr (), w2) ∧
    written w2 "again.png" = Some out ∧
    make_transparent "in.png" "again.png" 20 example_alpha_world
      = (inr (), w3) ∧
    written w3 "again.png" = Some out.
Proof.
  apply (two_runs_are_one_at_min example_alpha_world "in.png" "out.png"
           example_alpha_image); alpha_world_run.
Defined.

Lemma lower_threshold_lower_alpha_witness :
  ∃ out1 out2 w1 w2 q1 q2,
    make_transparent "in.png" "out.png" 240 example_alpha_world
      = (inr (), w1) ∧
    written w1 "out.png" = Some out1 ∧
    make_transparent "in.png" "again.png" 251 example_alpha_world
      = (inr (), w2) ∧
    written w2 "again.png" = Some out2 ∧
    pixel_at out1 1 0 = Some q1 ∧
    pixel_at out2 1 0 = Some q2 ∧
    (alpha q1 ≤ alpha q2)%Z ∧
    colour q1 = colour q2.
Proof.
  apply (lower_threshold_lower_alpha example_alpha_world "in.png" "out.png"
           example_alpha_image) with (p := (250, 250, 250, 128)%Z);
    first [alpha_world_run | (simpl; lia)].
Defined.


Lemma main_twice_same_files_witness :
  ∃ w1 w2,
    main example_logo_world = (inr (), w1) ∧
    main w1 = (inr (), w2) ∧
    fs w2 = fs w1.
Proof.
  apply (main_twice_same_files example_logo_world example_image);
    first [ reflexivity
          | apply not_elem_of_empty
          | (split; [reflexivity | repeat constructor]) ].
Defined.

